(** * Hangman API: the guess transition of [make_move]

    A shallow embedding of [src/Hangman/api.py]: the [make_move] endpoint
    (the game state machine), [updateHistory], [create_user] and the
    average-attempts task.  Python strings are modelled as [string]: the
    model is that of 7-bit text, where the letters are A-Z and a-z, and a
    statement that rests on a character not being a letter says that the
    character is in that range.  Python integers are modelled as [Z],
    the repeated integer property [guessed_letters] as [list nat] in
    insertion order, and the JSON-encoded [history] as the list of
    (guess, message) pairs it encodes. *)

From Stdlib Require Import String Ascii List ZArith Lia Bool Arith.
From Stdlib Require Import Permutation DecimalString SpecFloat.
Import ListNotations.

Open Scope string_scope.

(** ** Python string primitives used by the endpoint

    [isalpha_char] and [upper_char] are Python's [isalpha] and [upper] on
    the codes below 128.  On the codes from 128 on Python knows further
    letters, which these definitions do not follow: [seven_bit] bounds a
    text to the range where they agree with the program. *)

Module PyStr.

Definition is_upper_char (c : ascii) : bool :=
  (65 <=? nat_of_ascii c)%nat && (nat_of_ascii c <=? 90)%nat.

Definition is_lower_char (c : ascii) : bool :=
  (97 <=? nat_of_ascii c)%nat && (nat_of_ascii c <=? 122)%nat.

Definition isalpha_char (c : ascii) : bool :=
  is_upper_char c || is_lower_char c.

Definition upper_char (c : ascii) : ascii :=
  if is_lower_char c then ascii_of_nat (nat_of_ascii c - 32) else c.

(** [s.upper()] *)
Fixpoint upper (s : string) : string :=
  match s with
  | EmptyString => EmptyString
  | String c s' => String (upper_char c) (upper s')
  end.

Fixpoint all_alpha (s : string) : bool :=
  match s with
  | EmptyString => true
  | String c s' => isalpha_char c && all_alpha s'
  end.

(** [s.isalpha()]: at least one character, and all of them letters. *)
Definition isalpha (s : string) : bool :=
  match s with
  | EmptyString => false
  | String _ _ => all_alpha s
  end.

(** [c in s] for a character [c]. *)
Fixpoint has_char (c : ascii) (s : string) : Prop :=
  match s with
  | EmptyString => False
  | String d s' => c = d \/ has_char c s'
  end.

(** Every character of [s] has a code below 128. *)
Definition seven_bit (s : string) : Prop :=
  forall c, has_char c s -> nat_of_ascii c < 128.

(** [sub in s] for strings. *)
Definition contains (s sub : string) : Prop :=
  exists pre post, s = pre ++ sub ++ post.

End PyStr.

Import PyStr.

(** ** Data model *)

(** The fields of the [Game] entity that [make_move] reads or writes. *)
Record Game : Type := mkGame {
  target : string;
  guessed_letters : list nat;
  attempts_remaining : Z;
  game_over : bool;
  won : bool;
  history : list (string * string)
}.

(** What [game.to_form(msg)] hands back to the caller. *)
Record GameForm : Type := mkGameForm {
  form_attempts_remaining : Z;
  form_game_over : bool;
  form_message : string
}.

Inductive exn : Type :=
| BadRequestException (message : string).

(** A value a Python call evaluates to: the endpoint normally returns a
    [GameForm]; an exception object is also a value and can be returned. *)
Inductive value : Type :=
| FormValue (f : GameForm)
| ExceptionValue (e : exn).

(** How a call of the endpoint ends, with the game entity as it is then. *)
Inductive outcome : Type :=
| Returned (v : value) (g : Game)
| Raised (e : exn) (g : Game).

Definition game_after (o : outcome) : Game :=
  match o with
  | Returned _ g => g
  | Raised _ g => g
  end.

(** Whether the call ended by raising. *)
Definition raised (o : outcome) : bool :=
  match o with
  | Returned _ _ => false
  | Raised _ _ => true
  end.

Inductive state : Type := IN_PROGRESS | WON | LOST.

Definition state_of (g : Game) : state :=
  if game_over g then (if won g then WON else LOST) else IN_PROGRESS.

(** ** Field updates *)

Definition set_guessed_letters (g : Game) (l : list nat) : Game :=
  mkGame (target g) l (attempts_remaining g) (game_over g) (won g) (history g).

Definition set_attempts_remaining (g : Game) (n : Z) : Game :=
  mkGame (target g) (guessed_letters g) n (game_over g) (won g) (history g).

Definition set_history (g : Game) (h : list (string * string)) : Game :=
  mkGame (target g) (guessed_letters g) (attempts_remaining g) (game_over g)
         (won g) h.

(** ** Methods of [Game] (models.py) *)

(** Modelled from the spec: [Game.new_game] of models.py is not part of the
    sources; a session starts in progress with the chosen target, the
    caller's attempts budget, no guessed position and an empty history. *)
Definition new_game (word : string) (attempts : Z) : Game :=
  mkGame word [] attempts false false [].

(** Modelled from the spec: [Game.end_game] of models.py is not part of the
    sources; both terminal states set [game_over], and [won] records which
    one was reached. *)
Definition end_game (g : Game) (w : bool) : Game :=
  mkGame (target g) (guessed_letters g) (attempts_remaining g) true w
         (history g).

Definition mem_nat (i : nat) (l : list nat) : bool := existsb (Nat.eqb i) l.

Definition placeholder : ascii := "_"%char.

Fixpoint mask (s : string) (i : nat) (guessed : list nat) : string :=
  match s with
  | EmptyString => EmptyString
  | String c s' =>
      String (if mem_nat i guessed then c else placeholder)
             (mask s' (S i) guessed)
  end.

(** Modelled from the spec: [Game.word_progress] of models.py is not part of
    the sources; for each index of the target it shows the target's
    character when the index is a guessed position and the placeholder
    otherwise, keeping order and length. *)
Definition word_progress (g : Game) : string :=
  mask (target g) 0 (guessed_letters g).

(** Modelled from the spec: [Game.to_form] of models.py is not part of the
    sources; the reply carries the message and the game as it is when the
    form is built. *)
Definition to_form (g : Game) (msg : string) : GameForm :=
  mkGameForm (attempts_remaining g) (game_over g) msg.

(** ** api.py *)

(** [updateHistory(game, guess, msg)]: decode the history, append the pair,
    encode and store it. *)
Definition updateHistory (g : Game) (guess msg : string) : Game :=
  set_history g (history g ++ [(guess, msg)]).

(** The loop of [make_move] over [enumerate(game.target)], started at index
    [i] with the current [guessed_letters] and [letterInWord]; [u] is
    [request.guess.upper()]. *)
Fixpoint reveal (u : string) (s : string) (i : nat) (gl : list nat)
    (letterInWord : bool) : list nat * bool :=
  match s with
  | EmptyString => (gl, letterInWord)
  | String c s' =>
      if String.eqb u (String c EmptyString) && negb (mem_nat i gl)
      then reveal u s' (S i) (gl ++ [i]) true
      else reveal u s' (S i) gl letterInWord
  end.

Definition msg_already_over : string := "Game is already over!".
Definition msg_not_letters : string := "Guess must be all letters!".
Definition msg_bad_length : string :=
  "Guess must be a single character or the word!".
Definition msg_win : string := "You win! Word was ".
Definition msg_hit : string := "Letter was in the word! Word progress: ".
Definition msg_miss : string := "Letter was not in the word! Word progress: ".
Definition msg_lost : string := "Game over!".

(** [HangmanApi.make_move] on the loaded [game] with [request.guess]. *)
Definition make_move (game : Game) (guess : string) : outcome :=
  if game_over game then
    Returned (ExceptionValue (BadRequestException msg_already_over)) game
  else if isalpha guess then
    if String.eqb guess (target game) then
      let msg := msg_win ++ target game in
      let game := end_game (updateHistory game guess msg) true in
      Returned (FormValue (to_form game msg)) game
    else if (String.length guess =? 1)%nat then
      let '(gl, letterInWord) :=
        reveal (upper guess) (target game) 0 (guessed_letters game) false in
      let game := set_guessed_letters game gl in
      if (List.length (guessed_letters game) =? String.length (target game))%nat
      then
        let msg := msg_win ++ word_progress game in
        let game := end_game (updateHistory game guess msg) true in
        Returned (FormValue (to_form game msg)) game
      else
        let msg := if letterInWord then msg_hit else msg_miss in
        let game :=
          if letterInWord then game
          else set_attempts_remaining game (attempts_remaining game - 1) in
        if (attempts_remaining game <? 1)%Z then
          let msg := msg_lost in
          let game := end_game (updateHistory game guess msg) false in
          Returned (FormValue (to_form game msg)) game
        else
          let game := updateHistory game guess (msg ++ word_progress game) in
          Returned (FormValue (to_form game (msg ++ word_progress game))) game
    else Raised (BadRequestException msg_bad_length) game
  else Raised (BadRequestException msg_not_letters) game.

(** Successive calls on the same game key: each call works on the entity the
    previous one left. *)
Fixpoint play (g : Game) (guesses : list string) : list outcome :=
  match guesses with
  | [] => []
  | guess :: rest =>
      let o := make_move g guess in
      o :: play (game_after o) rest
  end.

Definition message_of (o : outcome) : option string :=
  match o with
  | Returned (FormValue f) _ => Some (form_message f)
  | Returned (ExceptionValue (BadRequestException m)) _ => Some m
  | Raised (BadRequestException m) _ => Some m
  end.

(** ** The average-attempts task

    [_cache_average_attempts] sums and counts in Python integers, divides in
    double precision and stores the quotient rendered with two decimals.
    The integer part is embedded as it is written; the rendering of
    [float(total)/count] by ['{:.2f}'.format] is the argument
    [format_average], a function of the two integers.  [memcache] holds at
    most one value under the key [MOVES_REMAINING]. *)

Section AverageAttempts.

Variable format_average : Z -> nat -> string.

(** [Game.query(Game.game_over == False).fetch()] over the stored games. *)
Definition active_games (store : list Game) : list Game :=
  filter (fun g => negb (game_over g)) store.

Definition total_attempts_remaining (games : list Game) : Z :=
  fold_right Z.add 0%Z (map attempts_remaining games).

Definition msg_average : string := "The average moves remaining is ".

Definition _cache_average_attempts (store : list Game)
    (memcache : option string) : option string :=
  match active_games store with
  | [] => memcache
  | games =>
      let count := List.length games in
      Some (msg_average
            ++ format_average (total_attempts_remaining games) count)
  end.

(** [memcache.get(MEMCACHE_MOVES_REMAINING) or ''] *)
Definition get_average_attempts (memcache : option string) : string :=
  match memcache with
  | Some (String c s) => String c s
  | _ => EmptyString
  end.

End AverageAttempts.

(** ** The rendering of the average

    [float(total)/count] divides in IEEE-754 binary64: for integers below
    [2^53] in absolute value the conversions are exact and the quotient is
    the exact quotient rounded to the nearest number with a 53-bit
    significand, ties to even.  ['{:.2f}'.format] renders the exact value of
    that number rounded to the nearest hundredth, ties to even.  Both are
    written out here in integer arithmetic, for sums below [2^53] in
    absolute value. *)

(** [a / b] rounded to the nearest integer, ties to even, for [0 < b]. *)
Definition round_half_even (a b : Z) : Z :=
  let q := (a / b)%Z in
  let r := (a mod b)%Z in
  if (2 * r <? b)%Z then q
  else if (b <? 2 * r)%Z then (q + 1)%Z
  else if Z.even q then q else (q + 1)%Z.

(** The least [s] with [2^52 <= t * 2^s / c], for [0 < t] and [0 < c]: the
    quotient has its 53-bit significand at scale [2^-s]. *)
Definition binary64_shift (t c : Z) : Z :=
  let s0 := Z.max 0 (52 + Z.log2 c - Z.log2 t) in
  if (2 ^ 52 * c <=? t * 2 ^ s0)%Z then s0 else (s0 + 1)%Z.

(** The significand of the binary64 quotient [t / c], which is
    [binary64_significand t c / 2 ^ binary64_shift t c]. *)
Definition binary64_significand (t c : Z) : Z :=
  round_half_even (t * 2 ^ binary64_shift t c) c.

(** The hundredths that ['{:.2f}'] shows for the magnitude of
    [float(t)/c]. *)
Definition hundredths (t c : Z) : Z :=
  if (t =? 0)%Z then 0%Z
  else round_half_even (100 * binary64_significand (Z.abs t) c)
                       (2 ^ binary64_shift (Z.abs t) c).

Definition digit (n : Z) : ascii := ascii_of_nat (48 + Z.to_nat n).

(** The text of a number of hundredths: sign, integer part, point and two
    decimals. *)
Definition show_hundredths (negative : bool) (h : Z) : string :=
  (if negative then "-" else "")
  ++ NilZero.string_of_uint (N.to_uint (Z.to_N (h / 100)))
  ++ "."
  ++ String (digit ((h / 10) mod 10)) (String (digit (h mod 10)) "").

(** ['{:.2f}'.format(float(total)/count)] *)
Definition format_2f (total : Z) (count : nat) : string :=
  show_hundredths (total <? 0)%Z (hundredths total (Z.of_nat count)).

(** Seven games of one attempt and one of two, all in progress. *)
Definition eight_games : list Game :=
  (repeat (new_game "PERU" 1) 7 ++ [new_game "CHAD" 2])%list.

(** ** Notions used in the statements *)

(** The positions the loop appends, in the order it appends them: those
    from index [i] on whose character equals [u] and that are not in [gl]. *)
Fixpoint fresh_matches (u : string) (s : string) (i : nat) (gl : list nat)
    : list nat :=
  match s with
  | EmptyString => []
  | String c s' =>
      if String.eqb u (String c EmptyString) && negb (mem_nat i gl)
      then i :: fresh_matches u s' (S i) gl
      else fresh_matches u s' (S i) gl
  end.

Definition nonempty {A : Type} (l : list A) : bool :=
  match l with
  | [] => false
  | _ :: _ => true
  end.

(** [guessed_letters] holds distinct index positions of the target. *)
Definition valid_positions (g : Game) : Prop :=
  NoDup (guessed_letters g)
  /\ Forall (fun i => i < String.length (target g)) (guessed_letters g).

(** A game in progress still has a position to reveal. *)
Definition game_inv (g : Game) : Prop :=
  valid_positions g
  /\ (game_over g = false ->
      List.length (guessed_letters g) < String.length (target g)).

Inductive reachable (word : string) (attempts : Z) : Game -> Prop :=
| reach_new : reachable word attempts (new_game word attempts)
| reach_move (g : Game) (guess : string) :
    reachable word attempts g ->
    reachable word attempts (game_after (make_move g guess)).

(** The letter, in upper case, is the character at position [i] of the
    target: the comparison the loop makes. *)
Definition matches_at (g : Game) (guess : string) (i : nat) : Prop :=
  exists c, String.get i (target g) = Some c
            /\ upper guess = String c EmptyString.

(** Every position the letter matches is already guessed. *)
Definition nothing_to_reveal (g : Game) (guess : string) : Prop :=
  forall i, matches_at g guess i -> In i (guessed_letters g).

(** What a miss does, on both of its exits. *)
Definition miss_outcome (g : Game) (guess : string) : outcome :=
  let g1 := set_attempts_remaining g (attempts_remaining g - 1) in
  if (attempts_remaining g - 1 <? 1)%Z then
    let g2 := end_game (updateHistory g1 guess msg_lost) false in
    Returned (FormValue (to_form g2 msg_lost)) g2
  else
    let msg := msg_miss ++ word_progress g in
    let g2 := updateHistory g1 guess msg in
    Returned (FormValue (to_form g2 msg)) g2.

(** A game of "PERU" won by guessing the word at once. *)
Definition finished_game : Game :=
  mkGame "PERU" [] 5 true true [("PERU", "You win! Word was PERU")].

(** "PERU" with one attempt, after the letter P was revealed. *)
Definition peru_after_P : Game :=
  game_after (make_move (new_game "PERU" 1) "P").

(** ** Sequences of calls and what they log *)

(** The game as the last of the calls leaves it. *)
Fixpoint game_after_all (g : Game) (guesses : list string) : Game :=
  match guesses with
  | [] => g
  | guess :: rest => game_after_all (game_after (make_move g guess)) rest
  end.

(** The history entry a call stands for: the guess with the message of the
    form it returned, and nothing when it returned no form. *)
Definition logged (p : string * outcome) : list (string * string) :=
  match p with
  | (guess, Returned (FormValue f) _) => [(guess, form_message f)]
  | (_, _) => []
  end.

(** The state an accepted move leaves, read off the tests of [make_move] in
    the order it makes them. *)
Definition decided_state (g g' : Game) (guess : string) : state :=
  if String.eqb guess (target g)
     || (List.length (guessed_letters g') =? String.length (target g'))%nat
  then WON
  else if (attempts_remaining g' <? 1)%Z then LOST
  else IN_PROGRESS.

(** Attempts against state: none left on a lost game, at least one
    otherwise. *)
Definition budget_ok (g : Game) : Prop :=
  match state_of g with
  | LOST => attempts_remaining g = 0%Z
  | _ => (1 <= attempts_remaining g)%Z
  end.

(** The letter matches a position that is not guessed yet. *)
Definition hits (g : Game) (guess : string) : Prop :=
  exists i, matches_at g guess i /\ ~ In i (guessed_letters g).

(** Position [i] of the target holds a character of the 7-bit range that
    is not a letter (a space, a hyphen, an apostrophe, a digit), and is not
    guessed. *)
Definition blocked_at (g : Game) (i : nat) : Prop :=
  (exists c, String.get i (target g) = Some c
             /\ nat_of_ascii c < 128
             /\ isalpha_char c = false)
  /\ ~ In i (guessed_letters g).

(** ** Registration *)

(** The properties of the [User] entity that [create_user] sets. *)
Record User : Type := mkUser {
  name : string;
  email : option string
}.

Inductive endpoint_exn : Type :=
| ConflictException (message : string)
| NotFoundException (message : string).

(** [User.query(User.name == user_name).get()] over the stored users. *)
Definition user_by_name (users : list User) (user_name : string)
    : option User :=
  find (fun u => String.eqb (name u) user_name) users.

(** [HangmanApi.create_user]: the reply or the exception raised, and the
    stored users afterwards. *)
Definition create_user (users : list User) (user_name : string)
    (user_email : option string) : (endpoint_exn + string) * list User :=
  match user_by_name users user_name with
  | Some _ =>
      (inl (ConflictException "A User with that name already exists!"),
       users)
  | None =>
      (inr ("User " ++ user_name ++ " created!"),
       (users ++ [mkUser user_name user_email])%list)
  end.

(** * Properties *)

Ltac unfold_move :=
  unfold make_move, end_game, updateHistory, set_history,
    set_attempts_remaining, set_guessed_letters, to_form.

(** ** The loop over the target *)

Lemma mem_nat_In (i : nat) (l : list nat) : mem_nat i l = true <-> In i l.
Proof.
  unfold mem_nat. rewrite existsb_exists. split.
  - intros [x [Hx Heq]]. apply Nat.eqb_eq in Heq. now subst.
  - intros H. exists i. split; [assumption | apply Nat.eqb_refl].
Qed.

Lemma mem_nat_app_below (i : nat) (gl acc : list nat) :
  Forall (fun j => j < i) acc -> mem_nat i (gl ++ acc) = mem_nat i gl.
Proof.
  intros Hacc. unfold mem_nat. rewrite existsb_app.
  replace (existsb (Nat.eqb i) acc) with false; [apply orb_false_r|].
  symmetry. induction Hacc as [|j acc Hj _ IH]; simpl; [reflexivity|].
  rewrite IH, orb_false_r. apply Nat.eqb_neq. lia.
Qed.

(** The membership test of the loop reads the list while it grows; the
    indices appended so far are all below the current one, so the test
    answers as on the list the loop started with. *)
Lemma reveal_acc (u s : string) :
  forall i gl acc liw,
    Forall (fun j => j < i) acc ->
    reveal u s i (gl ++ acc) liw
    = ((gl ++ acc ++ fresh_matches u s i gl)%list,
       liw || nonempty (fresh_matches u s i gl)).
Proof.
  induction s as [|c s IH]; intros i gl acc liw Hacc; simpl.
  - now rewrite app_nil_r, orb_false_r.
  - rewrite mem_nat_app_below by assumption.
    destruct (String.eqb u (String c "") && negb (mem_nat i gl)).
    + rewrite <- app_assoc. rewrite IH.
      * rewrite <- app_assoc. simpl. now rewrite orb_true_r.
      * apply Forall_app. split.
        -- eapply Forall_impl; [|exact Hacc]. simpl. lia.
        -- constructor; [lia | constructor].
    + apply IH. eapply Forall_impl; [|exact Hacc]. simpl. lia.
Qed.

Lemma reveal_fresh (u s : string) (gl : list nat) :
  reveal u s 0 gl false
  = ((gl ++ fresh_matches u s 0 gl)%list,
     nonempty (fresh_matches u s 0 gl)).
Proof.
  pose proof (reveal_acc u s 0 gl [] false (Forall_nil _)) as H.
  rewrite app_nil_r in H. exact H.
Qed.

Lemma fresh_matches_range (u s : string) :
  forall i gl j,
    In j (fresh_matches u s i gl) ->
    i <= j < i + String.length s /\ ~ In j gl.
Proof.
  induction s as [|c s IH]; intros i gl j Hin; simpl in *; [contradiction|].
  destruct (String.eqb u (String c "") && negb (mem_nat i gl)) eqn:E.
  - destruct Hin as [<- | Hin].
    + split; [lia|]. apply andb_true_iff in E. destruct E as [_ E].
      apply negb_true_iff in E. intros Hm. apply mem_nat_In in Hm. congruence.
    + apply IH in Hin. split; [lia | tauto].
  - apply IH in Hin. split; [lia | tauto].
Qed.

Lemma fresh_matches_NoDup (u s : string) :
  forall i gl, NoDup (fresh_matches u s i gl).
Proof.
  induction s as [|c s IH]; intros i gl; simpl; [constructor|].
  destruct (String.eqb u (String c "") && negb (mem_nat i gl)).
  - constructor; [|apply IH]. intros Hin.
    apply fresh_matches_range in Hin. lia.
  - apply IH.
Qed.

(** The loop leaves nothing to append exactly when every position that
    carries [u] is already guessed. *)
Lemma fresh_matches_nil (u s : string) :
  forall i gl,
    (forall k c, String.get k s = Some c -> u = String c "" -> In (i + k) gl) ->
    fresh_matches u s i gl = [].
Proof.
  induction s as [|c s IH]; intros i gl H; simpl; [reflexivity|].
  destruct (String.eqb u (String c "")) eqn:E; simpl.
  - apply String.eqb_eq in E.
    assert (Hin : In i gl).
    { rewrite <- (Nat.add_0_r i). apply (H 0 c); [reflexivity | assumption]. }
    apply mem_nat_In in Hin. rewrite Hin. simpl.
    apply IH. intros k d Hk Hu. replace (S i + k) with (i + S k) by lia.
    apply (H (S k) d); assumption.
  - apply IH. intros k d Hk Hu. replace (S i + k) with (i + S k) by lia.
    apply (H (S k) d); assumption.
Qed.

(** ** Well-formed games *)

Lemma positions_bounded (l : list nat) (n : nat) :
  NoDup l -> Forall (fun i => i < n) l -> List.length l <= n.
Proof.
  intros Hnd Hall. rewrite <- (length_seq n 0).
  apply NoDup_incl_length; [assumption|].
  intros i Hi. apply in_seq. rewrite Forall_forall in Hall.
  specialize (Hall i Hi). lia.
Qed.

Lemma valid_positions_length (g : Game) :
  valid_positions g ->
  List.length (guessed_letters g) <= String.length (target g).
Proof. intros [Hnd Hall]. now apply positions_bounded. Qed.

Lemma valid_positions_reveal (g : Game) (u : string) :
  valid_positions g ->
  valid_positions
    (set_guessed_letters g
       (guessed_letters g ++ fresh_matches u (target g) 0 (guessed_letters g))).
Proof.
  intros [Hnd Hall]. split; simpl.
  - apply NoDup_app.
    + assumption.
    + apply fresh_matches_NoDup.
    + intros j Hj Hj'. apply fresh_matches_range in Hj'. tauto.
  - apply Forall_app. split; [assumption|].
    apply Forall_forall. intros j Hj. apply fresh_matches_range in Hj. lia.
Qed.

(** Every way [make_move] ends leaves the target as it was. *)
Lemma make_move_target (g : Game) (guess : string) :
  target (game_after (make_move g guess)) = target g.
Proof.
  unfold_move.
  destruct (game_over g); [reflexivity|].
  destruct (isalpha guess); [|reflexivity].
  destruct (String.eqb guess (target g)); [reflexivity|].
  destruct (String.length guess =? 1)%nat; [|reflexivity].
  rewrite reveal_fresh. simpl.
  destruct (_ =? _)%nat; [reflexivity|].
  destruct (nonempty _); simpl; destruct (_ <? _)%Z; reflexivity.
Qed.

Lemma make_move_valid_positions (g : Game) (guess : string) :
  valid_positions g -> valid_positions (game_after (make_move g guess)).
Proof.
  intros Hv. unfold_move.
  destruct (game_over g); [exact Hv|].
  destruct (isalpha guess); [|exact Hv].
  destruct (String.eqb guess (target g)); [exact Hv|].
  destruct (String.length guess =? 1)%nat; [|exact Hv].
  rewrite reveal_fresh. simpl.
  pose proof (valid_positions_reveal g (upper guess) Hv) as Hv'.
  destruct (_ =? _)%nat; [exact Hv'|].
  destruct (nonempty _); simpl; destruct (_ <? _)%Z; exact Hv'.
Qed.

Lemma make_move_game_inv (g : Game) (guess : string) :
  game_inv g -> game_inv (game_after (make_move g guess)).
Proof.
  intros [Hv Hlt]. split; [now apply make_move_valid_positions|].
  revert Hlt. unfold_move.
  destruct (game_over g) eqn:Hover; [intros Hlt; simpl; rewrite Hover; exact Hlt|].
  destruct (isalpha guess);
    [|intros Hlt; simpl; rewrite Hover; exact Hlt].
  destruct (String.eqb guess (target g)); [simpl; discriminate|].
  destruct (String.length guess =? 1)%nat;
    [|intros Hlt; simpl; rewrite Hover; exact Hlt].
  rewrite reveal_fresh. simpl.
  pose proof (valid_positions_length _
                (valid_positions_reveal g (upper guess) Hv)) as Hle.
  simpl in Hle.
  destruct (_ =? _)%nat eqn:Hfull; [simpl; discriminate|].
  apply Nat.eqb_neq in Hfull. intros _.
  destruct (nonempty _); simpl; destruct (_ <? _)%Z; simpl; intros _; lia.
Qed.

Lemma new_game_inv (word : string) (attempts : Z) :
  word <> EmptyString -> game_inv (new_game word attempts).
Proof.
  intros Hne. repeat split; simpl; try constructor.
  intros _. destruct word; [congruence | simpl; lia].
Qed.

Lemma reachable_inv (word : string) (attempts : Z) (g : Game) :
  word <> EmptyString -> reachable word attempts g -> game_inv g.
Proof.
  intros Hne Hr. induction Hr.
  - now apply new_game_inv.
  - now apply make_move_game_inv.
Qed.

(** ** Moves on a finished game *)

Lemma make_move_game_over (g : Game) (guess : string) :
  game_over g = true ->
  make_move g guess
  = Returned (ExceptionValue (BadRequestException msg_already_over)) g.
Proof. intros H. unfold make_move. now rewrite H. Qed.

(** C1: on a game that is over, [make_move] does not fail: it hands the
    [BadRequestException] "Game is already over!" back as an ordinary return
    value and raises nothing.  The game is left as it was. *)
Theorem game_over_move_returns_exception_value :
  make_move finished_game "P"
  = Returned (ExceptionValue (BadRequestException "Game is already over!"))
             finished_game
  /\ raised (make_move finished_game "P") = false.
Proof. split; reflexivity. Qed.

(** ** Whole-word guesses *)

(** C2: the whole-word comparison is exact.  On a fresh game of "PERU" the
    alphabetic guess "peru", whose upper-case form is the target, is
    rejected with "Guess must be a single character or the word!" and the
    game stays in progress, where the single-letter branch would have
    compared the upper-case form. *)
Theorem lowercase_word_guess_rejected :
  isalpha "peru" = true
  /\ upper "peru" = target (new_game "PERU" 5)
  /\ make_move (new_game "PERU" 5) "peru"
     = Raised (BadRequestException
                 "Guess must be a single character or the word!")
              (new_game "PERU" 5)
  /\ state_of (game_after (make_move (new_game "PERU" 5) "peru"))
     = IN_PROGRESS.
Proof. repeat split. Qed.

(** C9: on a game in progress, an alphabetic guess equal to the target wins
    at once and leaves [guessed_letters] as it was. *)
Theorem whole_word_win_keeps_guessed_letters (g : Game) (guess : string) :
  game_over g = false ->
  isalpha guess = true ->
  guess = target g ->
  exists f g',
    make_move g guess = Returned (FormValue f) g'
    /\ state_of g' = WON
    /\ guessed_letters g' = guessed_letters g
    /\ form_message f = msg_win ++ target g.
Proof.
  intros Hover Halpha ->. unfold make_move.
  rewrite Hover, Halpha, String.eqb_refl.
  do 2 eexists. split; [reflexivity|]. repeat split.
Qed.

(** The win leaves no position guessed on a fresh game of "PERU". *)
Lemma whole_word_win_keeps_guessed_letters_witness :
  exists f g',
    make_move (new_game "PERU" 5) "PERU" = Returned (FormValue f) g'
    /\ state_of g' = WON
    /\ guessed_letters g' = []
    /\ form_message f = "You win! Word was PERU".
Proof.
  apply (whole_word_win_keeps_guessed_letters (new_game "PERU" 5) "PERU");
    reflexivity.
Defined.

(** ** The PERU scenario *)

(** C3: a fresh game of "PERU" with 5 attempts, played with P, X, E, R, U:
    the masked progress and the attempts after each call, the final state
    and the final message. *)
Theorem peru_scenario :
  exists o1 o2 o3 o4 o5 m,
    play (new_game "PERU" 5) ["P"; "X"; "E"; "R"; "U"] = [o1; o2; o3; o4; o5]
    /\ word_progress (game_after o1) = "P___"
    /\ attempts_remaining (game_after o1) = 5%Z
    /\ word_progress (game_after o2) = "P___"
    /\ attempts_remaining (game_after o2) = 4%Z
    /\ word_progress (game_after o3) = "PE__"
    /\ attempts_remaining (game_after o3) = 4%Z
    /\ word_progress (game_after o4) = "PER_"
    /\ attempts_remaining (game_after o4) = 4%Z
    /\ state_of (game_after o5) = WON
    /\ message_of o5 = Some m
    /\ contains m "PERU".
Proof.
  do 6 eexists. split; [reflexivity|].
  repeat (split; [reflexivity|]).
  exists "You win! Word was ", "". reflexivity.
Qed.

(** ** Guesses that are not all letters *)

Lemma has_char_not_alpha (c : ascii) (s : string) :
  has_char c s -> isalpha_char c = false -> all_alpha s = false.
Proof.
  induction s as [|d s IH]; simpl; [contradiction|].
  intros [<- | Hin] Hc.
  - now rewrite Hc.
  - rewrite (IH Hin Hc). apply andb_false_r.
Qed.

Lemma isalpha_all_alpha (s : string) : isalpha s = true -> all_alpha s = true.
Proof. destruct s; [discriminate | trivial]. Qed.

(** C7, as stated, fails on a finished game: the guess "12" gets the
    "Game is already over!" value back, not the all-letters failure. *)
Lemma digits_on_finished_game_not_invalid_input :
  has_char "1"%char "12"
  /\ nat_of_ascii "1"%char < 128
  /\ isalpha_char "1"%char = false
  /\ make_move finished_game "12"
     <> Raised (BadRequestException "Guess must be all letters!")
               finished_game.
Proof.
  split; [now left|]. split; [apply Nat.ltb_lt; reflexivity|].
  split; [reflexivity | discriminate].
Qed.

(** C7, amended: on a game in progress, a guess with a character of the
    7-bit range that is not a letter (a digit, a space, a sign) raises
    [BadRequestException] "Guess must be all letters!", and the game, its
    history included, is as it was. *)
Theorem non_alpha_guess_rejected (g : Game) (guess : string) (c : ascii) :
  game_over g = false ->
  has_char c guess ->
  nat_of_ascii c < 128 ->
  isalpha_char c = false ->
  make_move g guess = Raised (BadRequestException msg_not_letters) g.
Proof.
  intros Hover Hin _ Hc. unfold make_move. rewrite Hover.
  destruct (isalpha guess) eqn:Halpha; [|reflexivity].
  apply isalpha_all_alpha in Halpha.
  rewrite (has_char_not_alpha c guess Hin Hc) in Halpha. discriminate.
Qed.

Lemma non_alpha_guess_rejected_witness :
  make_move (new_game "PERU" 5) "12"
  = Raised (BadRequestException "Guess must be all letters!")
           (new_game "PERU" 5).
Proof.
  apply (non_alpha_guess_rejected (new_game "PERU" 5) "12" "1"%char).
  - reflexivity.
  - now left.
  - apply Nat.ltb_lt. reflexivity.
  - reflexivity.
Defined.

(** ** Single letters that reveal nothing *)

Lemma nothing_to_reveal_fresh (g : Game) (guess : string) :
  nothing_to_reveal g guess ->
  fresh_matches (upper guess) (target g) 0 (guessed_letters g) = [].
Proof.
  intros H. apply fresh_matches_nil. intros k c Hk Hu. simpl.
  apply H. now exists c.
Qed.

Lemma make_move_miss (g : Game) (guess : string) :
  game_inv g ->
  game_over g = false ->
  isalpha guess = true ->
  String.length guess = 1 ->
  guess <> target g ->
  nothing_to_reveal g guess ->
  make_move g guess = miss_outcome g guess.
Proof.
  intros [_ Hlt] Hover Halpha Hlen Hneq Hnone.
  specialize (Hlt Hover). apply String.eqb_neq in Hneq.
  apply nothing_to_reveal_fresh in Hnone.
  unfold make_move, miss_outcome.
  rewrite Hover, Halpha, Hneq, Hlen, reveal_fresh, Hnone, app_nil_r.
  destruct g as [t gl a o w h]. simpl in *.
  replace (List.length gl =? String.length t)%nat with false
    by (symmetry; apply Nat.eqb_neq; lia).
  reflexivity.
Qed.

(** C4: on a well-formed game in progress, a single letter (not itself the
    whole target) that matches no position outside [guessed_letters] makes
    [make_move] return with [attempts_remaining] one lower and with exactly
    one entry, for this guess, appended to [history]. *)
Theorem miss_decrements_and_logs_once (g : Game) (guess : string) :
  game_inv g ->
  game_over g = false ->
  isalpha guess = true ->
  String.length guess = 1 ->
  guess <> target g ->
  nothing_to_reveal g guess ->
  exists f g' msg,
    make_move g guess = Returned (FormValue f) g'
    /\ attempts_remaining g' = (attempts_remaining g - 1)%Z
    /\ history g' = (history g ++ [(guess, msg)])%list
    /\ List.length (history g') = S (List.length (history g)).
Proof.
  intros Hinv Hover Halpha Hlen Hneq Hnone.
  rewrite (make_move_miss g guess Hinv Hover Halpha Hlen Hneq Hnone).
  unfold miss_outcome. destruct (_ <? _)%Z.
  - do 3 eexists. split; [reflexivity|]. simpl.
    repeat split. rewrite length_app. simpl. lia.
  - do 3 eexists. split; [reflexivity|]. simpl.
    repeat split. rewrite length_app. simpl. lia.
Qed.

Lemma nothing_to_reveal_X_in_PERU :
  nothing_to_reveal (new_game "PERU" 5) "X".
Proof.
  intros i [c [Hget Hup]]. simpl in Hget, Hup. injection Hup as <-.
  destruct i as [|[|[|[|i]]]]; simpl in Hget; discriminate.
Qed.

Lemma miss_decrements_and_logs_once_witness :
  exists f g' msg,
    make_move (new_game "PERU" 5) "X" = Returned (FormValue f) g'
    /\ attempts_remaining g' = 4%Z
    /\ history g' = [("X", msg)]
    /\ List.length (history g') = 1.
Proof.
  apply (miss_decrements_and_logs_once (new_game "PERU" 5) "X").
  - apply new_game_inv. discriminate.
  - reflexivity.
  - reflexivity.
  - reflexivity.
  - discriminate.
  - apply nothing_to_reveal_X_in_PERU.
Defined.

(** C5: on a well-formed game in progress with one attempt left, a single
    letter (not itself the whole target) that reveals no new position makes
    the same call bring [attempts_remaining] to 0, end the game as LOST and
    answer "Game over!". *)
Theorem last_miss_loses (g : Game) (guess : string) :
  game_inv g ->
  game_over g = false ->
  attempts_remaining g = 1%Z ->
  isalpha guess = true ->
  String.length guess = 1 ->
  guess <> target g ->
  nothing_to_reveal g guess ->
  exists f g',
    make_move g guess = Returned (FormValue f) g'
    /\ attempts_remaining g' = 0%Z
    /\ state_of g' = LOST
    /\ game_over g' = true
    /\ form_message f = "Game over!".
Proof.
  intros Hinv Hover Hone Halpha Hlen Hneq Hnone.
  rewrite (make_move_miss g guess Hinv Hover Halpha Hlen Hneq Hnone).
  unfold miss_outcome. rewrite Hone. simpl.
  do 2 eexists. split; [reflexivity|]. repeat split.
Qed.

Lemma nothing_to_reveal_Z_in_CHAD :
  nothing_to_reveal (new_game "CHAD" 1) "Z".
Proof.
  intros i [c [Hget Hup]]. simpl in Hget, Hup. injection Hup as <-.
  destruct i as [|[|[|[|i]]]]; simpl in Hget; discriminate.
Qed.

(** The CHAD scenario: one attempt, the miss "Z". *)
Lemma last_miss_loses_witness :
  exists f g',
    make_move (new_game "CHAD" 1) "Z" = Returned (FormValue f) g'
    /\ attempts_remaining g' = 0%Z
    /\ state_of g' = LOST
    /\ game_over g' = true
    /\ form_message f = "Game over!".
Proof.
  apply (last_miss_loses (new_game "CHAD" 1) "Z").
  - apply new_game_inv. discriminate.
  - reflexivity.
  - reflexivity.
  - reflexivity.
  - reflexivity.
  - discriminate.
  - apply nothing_to_reveal_Z_in_CHAD.
Defined.

(** ** Repeating a revealed letter *)

Lemma repeated_letter_not_target (g : Game) (guess : string) :
  game_inv g ->
  game_over g = false ->
  String.length guess = 1 ->
  (exists i, matches_at g guess i) ->
  nothing_to_reveal g guess ->
  guess <> target g.
Proof.
  intros [_ Hlt] Hover Hlen [i Hm] Hnone Heq.
  specialize (Hlt Hover). rewrite <- Heq, Hlen in Hlt.
  specialize (Hnone i Hm).
  destruct (guessed_letters g); simpl in *; [contradiction | lia].
Qed.

(** C10: on a well-formed game in progress, a single letter that matches
    positions of the target, all of them already in [guessed_letters], is a
    miss: [attempts_remaining] goes down by one, nothing is revealed, and
    when one attempt was left the game is LOST. *)
Theorem repeated_letter_is_a_miss (g : Game) (guess : string) :
  game_inv g ->
  game_over g = false ->
  isalpha guess = true ->
  String.length guess = 1 ->
  (exists i, matches_at g guess i) ->
  nothing_to_reveal g guess ->
  exists f g',
    make_move g guess = Returned (FormValue f) g'
    /\ attempts_remaining g' = (attempts_remaining g - 1)%Z
    /\ guessed_letters g' = guessed_letters g
    /\ (attempts_remaining g = 1%Z ->
        state_of g' = LOST /\ form_message f = "Game over!").
Proof.
  intros Hinv Hover Halpha Hlen Hex Hnone.
  pose proof (repeated_letter_not_target g guess Hinv Hover Hlen Hex Hnone)
    as Hneq.
  rewrite (make_move_miss g guess Hinv Hover Halpha Hlen Hneq Hnone).
  unfold miss_outcome. destruct (_ <? _)%Z eqn:Hlow.
  - do 2 eexists. split; [reflexivity|]. simpl.
    split; [reflexivity|]. split; [reflexivity|]. intros _. now split.
  - do 2 eexists. split; [reflexivity|]. simpl.
    split; [reflexivity|]. split; [reflexivity|].
    intros Hone. rewrite Hone in Hlow. discriminate.
Qed.

Lemma P_revealed_in_peru_after_P :
  (exists i, matches_at peru_after_P "P" i)
  /\ nothing_to_reveal peru_after_P "P".
Proof.
  split.
  - exists 0, "P"%char. split; reflexivity.
  - intros i [c [Hget Hup]]. simpl in Hget, Hup. injection Hup as <-.
    destruct i as [|[|[|[|i]]]]; simpl in Hget; try discriminate.
    now left.
Qed.

(** Repeating the revealed P with one attempt left loses the game. *)
Lemma repeated_letter_is_a_miss_witness :
  exists f g',
    make_move peru_after_P "P" = Returned (FormValue f) g'
    /\ attempts_remaining g' = (attempts_remaining peru_after_P - 1)%Z
    /\ guessed_letters g' = guessed_letters peru_after_P
    /\ (attempts_remaining peru_after_P = 1%Z ->
        state_of g' = LOST /\ form_message f = "Game over!").
Proof.
  apply (repeated_letter_is_a_miss peru_after_P "P").
  - apply make_move_game_inv, new_game_inv. discriminate.
  - reflexivity.
  - reflexivity.
  - reflexivity.
  - apply P_revealed_in_peru_after_P.
  - apply P_revealed_in_peru_after_P.
Defined.

(** ** The bound on [guessed_letters] *)

(** C6: from a game whose [guessed_letters] are distinct index positions of
    its target, after each call of any sequence of [make_move] calls the
    number of guessed positions is at most the length of the target, and the
    positions are still distinct and valid. *)
Theorem guessed_letters_within_target (guesses : list string) :
  forall g : Game,
    valid_positions g ->
    Forall (fun o =>
              List.length (guessed_letters (game_after o))
              <= String.length (target (game_after o))
              /\ valid_positions (game_after o))
           (play g guesses).
Proof.
  induction guesses as [|guess rest IH]; intros g Hv; simpl.
  - constructor.
  - pose proof (make_move_valid_positions g guess Hv) as Hv'.
    constructor.
    + split; [now apply valid_positions_length | assumption].
    + now apply IH.
Qed.

Lemma guessed_letters_within_target_witness :
  Forall (fun o =>
            List.length (guessed_letters (game_after o))
            <= String.length (target (game_after o))
            /\ valid_positions (game_after o))
         (play (new_game "PERU" 5) ["P"; "X"; "E"; "R"; "U"; "Q"]).
Proof.
  apply (guessed_letters_within_target
           ["P"; "X"; "E"; "R"; "U"; "Q"] (new_game "PERU" 5)).
  split; constructor.
Defined.

(** The same bound on every game reached from a new one. *)
Lemma reachable_guessed_letters_bounded (word : string) (attempts : Z)
    (g : Game) :
  reachable word attempts g ->
  List.length (guessed_letters g) <= String.length (target g).
Proof.
  intros Hr. apply valid_positions_length. induction Hr.
  - split; constructor.
  - now apply make_move_valid_positions.
Qed.

(** ** The average-attempts task *)

(** With no game in progress the task writes nothing: what the cache held
    stays, and a cache never filled reads as the empty message. *)
Lemma cache_untouched_without_active_games (fmt : Z -> nat -> string)
    (store : list Game) (memcache : option string) :
  active_games store = [] ->
  _cache_average_attempts fmt store memcache = memcache.
Proof. intros H. unfold _cache_average_attempts. now rewrite H. Qed.

Lemma empty_cache_reads_empty : get_average_attempts None = EmptyString.
Proof. reflexivity. Qed.

(** Finished games count neither in the sum nor in the number of games. *)
Lemma cache_ignores_finished_game (fmt : Z -> nat -> string) (g : Game)
    (store : list Game) (memcache : option string) :
  game_over g = true ->
  _cache_average_attempts fmt (g :: store) memcache
  = _cache_average_attempts fmt store memcache.
Proof.
  intros H. unfold _cache_average_attempts, active_games. simpl.
  now rewrite H.
Qed.

(** * Further properties of [make_move] *)

(** One goal for each way the endpoint ends. *)
Ltac move_cases g guess :=
  unfold_move;
  destruct (game_over g) eqn:Hover;
  [ | destruct (isalpha guess) eqn:Halpha;
      [ destruct (String.eqb guess (target g)) eqn:Hword;
        [ | destruct (String.length guess =? 1)%nat eqn:Hlen;
            [ rewrite reveal_fresh; cbv beta iota zeta;
              cbn [guessed_letters target attempts_remaining];
              destruct (List.length _ =? String.length _)%nat eqn:Hfull;
              [ | destruct (nonempty _) eqn:Hhit;
                  cbn [guessed_letters target attempts_remaining];
                  destruct (_ <? 1)%Z eqn:Hlow ]
            | ] ]
      | ] ].

(** ** When and how a guess is rejected *)

(** X1: on a game that was found, with a guess of 7-bit characters,
    [make_move] raises exactly when the game is in progress and the guess
    is not all letters, or is neither the target nor a single character. *)
Theorem rejection_criterion (g : Game) (guess : string) :
  seven_bit guess ->
  (raised (make_move g guess) = true
   <-> game_over g = false
       /\ (isalpha guess = false
           \/ (guess <> target g /\ String.length guess <> 1))).
Proof.
  intros _.
  move_cases g guess; simpl; split;
    try discriminate; try (intros [? _]; discriminate).
  all: try (intros [_ [? | [Hne Hl]]]; try discriminate).
  all: try (apply String.eqb_eq in Hword; contradiction).
  all: try (apply Nat.eqb_eq in Hlen; contradiction).
  all: try reflexivity.
  - intros _. split; [reflexivity|]. right.
    apply String.eqb_neq in Hword. apply Nat.eqb_neq in Hlen. now split.
  - intros _. split; [reflexivity|]. now left.
Qed.

Lemma seven_bit_AB : seven_bit "AB".
Proof.
  intros c [-> | [-> | []]]; apply Nat.ltb_lt; reflexivity.
Qed.

(** "AB" on a game of "PERU" in progress: two letters, not the word. *)
Lemma rejection_criterion_witness :
  raised (make_move (new_game "PERU" 5) "AB") = true
  <-> game_over (new_game "PERU" 5) = false
      /\ (isalpha "AB" = false
          \/ ("AB" <> target (new_game "PERU" 5)
              /\ String.length "AB" <> 1)).
Proof.
  apply (rejection_criterion (new_game "PERU" 5) "AB").
  apply seven_bit_AB.
Defined.



(** ** What an accepted move writes *)

(** X3: a call that returns a form has appended exactly one entry to the
    history, the guess as typed with the message of that form; every other
    call leaves the whole game as it was. *)
Theorem reply_is_logged (g : Game) (guess : string) :
  match make_move g guess with
  | Returned (FormValue f) g' =>
      history g' = (history g ++ [(guess, form_message f)])%list
  | Returned (ExceptionValue _) g' => g' = g
  | Raised _ g' => g' = g
  end.
Proof. move_cases g guess; reflexivity. Qed.

(** X4: no call raises [attempts_remaining], and no call lowers it by more
    than one. *)
Theorem attempts_step (g : Game) (guess : string) :
  (attempts_remaining g - 1
   <= attempts_remaining (game_after (make_move g guess))
   <= attempts_remaining g)%Z.
Proof. move_cases g guess; simpl; lia. Qed.

(** X5: the state after a move that returned a form is decided by the
    completion of the word first and by the attempts second: WON when the
    guess is the target or every position is guessed, otherwise LOST when
    fewer than one attempt is left, otherwise still in progress. *)
Theorem accepted_move_state (g g' : Game) (guess : string) (f : GameForm) :
  game_over g = false ->
  make_move g guess = Returned (FormValue f) g' ->
  state_of g' = decided_state g g' guess.
Proof.
  intros Hprog. unfold decided_state. move_cases g guess;
    intros H; try discriminate; injection H as _ <-;
    unfold state_of; simpl; rewrite ?Hword, ?Hfull, ?Hlow, ?Hprog;
    reflexivity.
Qed.

Lemma accepted_move_state_witness :
  state_of (game_after (make_move (new_game "CHAD" 1) "Z"))
  = decided_state (new_game "CHAD" 1)
      (game_after (make_move (new_game "CHAD" 1) "Z")) "Z".
Proof.
  eapply (accepted_move_state (new_game "CHAD" 1) _ "Z"); reflexivity.
Defined.

(** ** What a single letter reveals *)

Lemma fresh_matches_sound (u s : string) :
  forall i gl j,
    In j (fresh_matches u s i gl) ->
    exists c, String.get (j - i) s = Some c /\ u = String c EmptyString.
Proof.
  induction s as [|c s IH]; intros i gl j Hin; simpl in Hin; [contradiction|].
  destruct (String.eqb u (String c "")) eqn:E; simpl in Hin.
  - destruct (mem_nat i gl); simpl in Hin.
    + pose proof (fresh_matches_range _ _ _ _ _ Hin) as [Hr _].
      destruct (IH _ _ _ Hin) as [d [Hd Hu]]. exists d. split; [|exact Hu].
      replace (j - i) with (S (j - S i)) by lia. exact Hd.
    + destruct Hin as [<- | Hin].
      * exists c. rewrite Nat.sub_diag. split; [reflexivity|].
        now apply String.eqb_eq.
      * pose proof (fresh_matches_range _ _ _ _ _ Hin) as [Hr _].
        destruct (IH _ _ _ Hin) as [d [Hd Hu]]. exists d. split; [|exact Hu].
        replace (j - i) with (S (j - S i)) by lia. exact Hd.
  - pose proof (fresh_matches_range _ _ _ _ _ Hin) as [Hr _].
    destruct (IH _ _ _ Hin) as [d [Hd Hu]]. exists d. split; [|exact Hu].
    replace (j - i) with (S (j - S i)) by lia. exact Hd.
Qed.

Lemma fresh_matches_complete (u s : string) :
  forall i gl k c,
    String.get k s = Some c ->
    u = String c EmptyString ->
    In (i + k) gl \/ In (i + k) (fresh_matches u s i gl).
Proof.
  induction s as [|d s IH]; intros i gl k c Hget Hu; simpl in Hget;
    [discriminate|].
  simpl. destruct k as [|k].
  - injection Hget as ->. rewrite Nat.add_0_r.
    rewrite Hu, String.eqb_refl. simpl.
    destruct (mem_nat i gl) eqn:Hm; simpl.
    + left. now apply mem_nat_In.
    + right. now left.
  - replace (i + S k) with (S i + k) by lia.
    destruct (IH (S i) gl k c Hget Hu) as [H | H]; [now left|].
    right. destruct (String.eqb u (String d "") && negb (mem_nat i gl));
      [now right | exact H].
Qed.

Lemma hits_fresh (g : Game) (guess : string) :
  hits g guess ->
  nonempty (fresh_matches (upper guess) (target g) 0 (guessed_letters g))
  = true.
Proof.
  intros [i [[c [Hget Hu]] Hnew]].
  destruct (fresh_matches_complete (upper guess) (target g) 0
              (guessed_letters g) i c Hget Hu) as [H | H];
    [contradiction|].
  simpl in H.
  destruct (fresh_matches _ _ _ _); [contradiction | reflexivity].
Qed.

(** X6: a call only ever appends to [guessed_letters]: what was guessed
    stays, in place, and each appended position is a distinct position of
    the target that carries the upper-cased letter and was not guessed. *)
Theorem guessed_letters_extend (g : Game) (guess : string) :
  exists new,
    guessed_letters (game_after (make_move g guess))
    = (guessed_letters g ++ new)%list
    /\ NoDup new
    /\ forall i, In i new ->
                 matches_at g guess i /\ ~ In i (guessed_letters g).
Proof.
  assert (Hnil : exists new : list nat,
             guessed_letters g = (guessed_letters g ++ new)%list
             /\ NoDup new
             /\ forall i, In i new ->
                          matches_at g guess i /\ ~ In i (guessed_letters g)).
  { exists []. rewrite app_nil_r. repeat split; try constructor;
      contradiction. }
  assert (Hfresh : exists new : list nat,
             (guessed_letters g
              ++ fresh_matches (upper guess) (target g) 0 (guessed_letters g))%list
             = (guessed_letters g ++ new)%list
             /\ NoDup new
             /\ forall i, In i new ->
                          matches_at g guess i /\ ~ In i (guessed_letters g)).
  { eexists. split; [reflexivity|]. split; [apply fresh_matches_NoDup|].
    intros i Hi. split.
    - destruct (fresh_matches_sound _ _ _ _ _ Hi) as [c [Hget Hu]].
      rewrite Nat.sub_0_r in Hget. now exists c.
    - apply fresh_matches_range in Hi. tauto. }
  move_cases g guess; simpl; assumption.
Qed.

(** X7: on a game in progress, a single letter that is not itself the whole
    target reveals every occurrence: after the call each position of the
    target that carries the upper-cased letter is in [guessed_letters]. *)
Theorem all_occurrences_revealed (g : Game) (guess : string) (i : nat) :
  game_over g = false ->
  isalpha guess = true ->
  String.length guess = 1 ->
  guess <> target g ->
  matches_at g guess i ->
  In i (guessed_letters (game_after (make_move g guess))).
Proof.
  intros Hprog Hal Hone Hneq [c [Hget Hu]].
  assert (Hin : In i (guessed_letters g
                      ++ fresh_matches (upper guess) (target g) 0
                           (guessed_letters g))).
  { apply in_or_app.
    exact (fresh_matches_complete _ _ 0 _ i c Hget Hu). }
  apply String.eqb_neq in Hneq. apply Nat.eqb_eq in Hone.
  move_cases g guess; simpl; try congruence; exact Hin.
Qed.

(** Both N of "ANNA" are revealed by one lower-case "n". *)
Lemma all_occurrences_revealed_witness :
  In 1 (guessed_letters (game_after (make_move (new_game "ANNA" 3) "n")))
  /\ In 2 (guessed_letters (game_after (make_move (new_game "ANNA" 3) "n"))).
Proof.
  split.
  - apply (all_occurrences_revealed (new_game "ANNA" 3) "n" 1);
      try reflexivity; try discriminate.
    exists "N"%char. split; reflexivity.
  - apply (all_occurrences_revealed (new_game "ANNA" 3) "n" 2);
      try reflexivity; try discriminate.
    exists "N"%char. split; reflexivity.
Defined.

(** X8: on a game in progress, a single letter that is not itself the whole
    target and that matches a position not guessed yet costs no attempt and
    adds at least one position. *)
Theorem hit_keeps_attempts (g : Game) (guess : string) :
  game_over g = false ->
  isalpha guess = true ->
  String.length guess = 1 ->
  guess <> target g ->
  hits g guess ->
  attempts_remaining (game_after (make_move g guess)) = attempts_remaining g
  /\ List.length (guessed_letters g)
     < List.length (guessed_letters (game_after (make_move g guess))).
Proof.
  intros Hprog Hal Hone Hneq Hh. apply hits_fresh in Hh.
  apply String.eqb_neq in Hneq. apply Nat.eqb_eq in Hone.
  move_cases g guess; simpl; try congruence.
  all: split; [reflexivity|]; rewrite length_app;
    destruct (fresh_matches _ _ _ _); [discriminate | simpl; lia].
Qed.

Lemma hits_P_in_PERU : hits (new_game "PERU" 5) "p".
Proof.
  exists 0. split; [|intros []]. exists "P"%char. split; reflexivity.
Qed.

Lemma hit_keeps_attempts_witness :
  attempts_remaining (game_after (make_move (new_game "PERU" 5) "p")) = 5%Z
  /\ 0 < List.length
           (guessed_letters (game_after (make_move (new_game "PERU" 5) "p"))).
Proof.
  apply (hit_keeps_attempts (new_game "PERU" 5) "p");
    try reflexivity; try discriminate.
  apply hits_P_in_PERU.
Defined.

(** X9: the attempts are tested after every accepted letter, not only after
    a miss: on a game in progress with fewer than one attempt left, a letter
    that hits without completing the word ends the game as LOST with
    "Game over!", the attempts as they were. *)
Theorem exhausted_budget_hit_loses (g g' : Game) (guess : string)
    (f : GameForm) :
  game_over g = false ->
  (attempts_remaining g < 1)%Z ->
  isalpha guess = true ->
  String.length guess = 1 ->
  guess <> target g ->
  hits g guess ->
  make_move g guess = Returned (FormValue f) g' ->
  List.length (guessed_letters g') <> String.length (target g) ->
  state_of g' = LOST
  /\ attempts_remaining g' = attempts_remaining g
  /\ form_message f = msg_lost.
Proof.
  intros Hprog Hno Hal Hone Hneq Hh. apply hits_fresh in Hh.
  apply String.eqb_neq in Hneq. apply Nat.eqb_eq in Hone.
  apply Z.ltb_lt in Hno.
  move_cases g guess; try congruence;
    intros H Hpart; injection H as <- <-; simpl in *.
  - apply Nat.eqb_eq in Hfull. contradiction.
  - repeat split.
Qed.

Lemma hits_P_in_PERU_without_attempts : hits (new_game "PERU" 0) "P".
Proof.
  exists 0. split; [|intros []]. exists "P"%char. split; reflexivity.
Qed.

(** A game of "PERU" created with 0 attempts is lost by the correct P. *)
Lemma exhausted_budget_hit_loses_witness :
  exists f g',
    make_move (new_game "PERU" 0) "P" = Returned (FormValue f) g'
    /\ state_of g' = LOST
    /\ attempts_remaining g' = 0%Z
    /\ form_message f = msg_lost.
Proof.
  do 2 eexists. split; [reflexivity|].
  eapply (exhausted_budget_hit_loses (new_game "PERU" 0) _ "P");
    try reflexivity; try discriminate.
  apply hits_P_in_PERU_without_attempts.
Defined.

(** ** Letters are read without regard to case *)

Lemma upper_char_idem (c : ascii) : upper_char (upper_char c) = upper_char c.
Proof. destruct c as [[] [] [] [] [] [] [] []]; reflexivity. Qed.

Lemma isalpha_char_upper (c : ascii) :
  isalpha_char (upper_char c) = isalpha_char c.
Proof. destruct c as [[] [] [] [] [] [] [] []]; reflexivity. Qed.

Lemma upper_idem (s : string) : upper (upper s) = upper s.
Proof.
  induction s as [|c s IH]; simpl; [reflexivity|].
  now rewrite upper_char_idem, IH.
Qed.

Lemma upper_length (s : string) : String.length (upper s) = String.length s.
Proof. induction s as [|c s IH]; simpl; [reflexivity | now rewrite IH]. Qed.

Lemma all_alpha_upper (s : string) : all_alpha (upper s) = all_alpha s.
Proof.
  induction s as [|c s IH]; simpl; [reflexivity|].
  now rewrite isalpha_char_upper, IH.
Qed.

Lemma isalpha_upper (s : string) : isalpha (upper s) = isalpha s.
Proof.
  destruct s as [|c s]; [reflexivity|].
  change (all_alpha (upper (String c s)) = all_alpha (String c s)).
  apply all_alpha_upper.
Qed.

(** X10: a single letter and its upper-case form are the same move: when
    neither is the whole target, the two calls leave the same target,
    guessed positions, attempts and flags, and answer with the same
    message. *)
Theorem letter_case_is_ignored (g : Game) (guess : string) :
  game_over g = false ->
  isalpha guess = true ->
  String.length guess = 1 ->
  guess <> target g ->
  upper guess <> target g ->
  let g1 := game_after (make_move g guess) in
  let g2 := game_after (make_move g (upper guess)) in
  target g1 = target g2
  /\ guessed_letters g1 = guessed_letters g2
  /\ attempts_remaining g1 = attempts_remaining g2
  /\ game_over g1 = game_over g2
  /\ won g1 = won g2
  /\ message_of (make_move g guess) = message_of (make_move g (upper guess)).
Proof.
  intros Hprog Hal Hone Hneq Hneq'.
  apply String.eqb_neq in Hneq, Hneq'.
  unfold make_move.
  rewrite Hprog, Hal, isalpha_upper, Hal, Hneq, Hneq', upper_length, Hone,
    upper_idem.
  simpl. rewrite reveal_fresh.
  cbv beta iota zeta. cbn [guessed_letters set_guessed_letters].
  destruct (List.length _ =? String.length _)%nat; [repeat split|].
  destruct (nonempty _); cbn [attempts_remaining set_guessed_letters
                                set_attempts_remaining];
    destruct (_ <? 1)%Z; repeat split.
Qed.

Lemma letter_case_is_ignored_witness :
  let g1 := game_after (make_move (new_game "PERU" 5) "e") in
  let g2 := game_after (make_move (new_game "PERU" 5) "E") in
  target g1 = target g2
  /\ guessed_letters g1 = guessed_letters g2
  /\ attempts_remaining g1 = attempts_remaining g2
  /\ game_over g1 = game_over g2
  /\ won g1 = won g2
  /\ message_of (make_move (new_game "PERU" 5) "e")
     = message_of (make_move (new_game "PERU" 5) "E").
Proof.
  apply (letter_case_is_ignored (new_game "PERU" 5) "e");
    try reflexivity; discriminate.
Defined.

(** ** Sequences of calls *)

(** X11: no sequence of calls changes a finished game: each of them returns
    the "Game is already over!" value and leaves the game as it was. *)
Theorem finished_game_absorbs (guesses : list string) (g : Game) :
  game_over g = true ->
  Forall (fun o =>
            o = Returned (ExceptionValue
                            (BadRequestException msg_already_over)) g)
         (play g guesses)
  /\ game_after_all g guesses = g.
Proof.
  intros Hover. induction guesses as [|guess rest [IH1 IH2]]; simpl.
  - split; [constructor | reflexivity].
  - rewrite (make_move_game_over g guess Hover). simpl.
    split; [constructor; [reflexivity | exact IH1] | exact IH2].
Qed.

Lemma finished_game_absorbs_witness :
  Forall (fun o =>
            o = Returned (ExceptionValue
                            (BadRequestException msg_already_over))
                         finished_game)
         (play finished_game ["P"; "12"; "PERU"])
  /\ game_after_all finished_game ["P"; "12"; "PERU"] = finished_game.
Proof.
  apply (finished_game_absorbs ["P"; "12"; "PERU"] finished_game).
  reflexivity.
Defined.

Lemma budget_ok_move (g : Game) (guess : string) :
  budget_ok g -> budget_ok (game_after (make_move g guess)).
Proof.
  unfold budget_ok, state_of.
  move_cases g guess; simpl; rewrite ?Hover; try (intros H; exact H);
    intros H.
  all: first [apply Z.ltb_lt in Hlow | apply Z.ltb_ge in Hlow]; lia.
Qed.

(** X12: attempts and state stay in step over any sequence of calls: from a
    game that has no attempt left exactly when it is lost and at least one
    otherwise, every later game has 0 attempts when it is lost and at least
    1 when it is in progress or won. *)
Theorem budget_matches_state (guesses : list string) :
  forall g : Game,
    budget_ok g ->
    Forall (fun o => budget_ok (game_after o)) (play g guesses).
Proof.
  induction guesses as [|guess rest IH]; intros g Hok; simpl;
    constructor.
  - now apply budget_ok_move.
  - apply IH. now apply budget_ok_move.
Qed.

Lemma budget_matches_state_witness :
  Forall (fun o => budget_ok (game_after o))
         (play (new_game "CHAD" 2) ["Z"; "C"; "Q"; "H"]).
Proof.
  apply (budget_matches_state ["Z"; "C"; "Q"; "H"] (new_game "CHAD" 2)).
  unfold budget_ok. simpl. lia.
Defined.

(** X13: over any sequence of calls a well-formed game stays well-formed: in
    particular a game still in progress always has a position of its target
    left to reveal. *)
Theorem in_progress_has_position_left (guesses : list string) :
  forall g : Game,
    game_inv g ->
    Forall (fun o =>
              game_inv (game_after o)
              /\ (game_over (game_after o) = false ->
                  List.length (guessed_letters (game_after o))
                  < String.length (target (game_after o))))
           (play g guesses).
Proof.
  induction guesses as [|guess rest IH]; intros g Hinv; simpl;
    constructor.
  - pose proof (make_move_game_inv g guess Hinv) as H.
    split; [exact H | apply H].
  - apply IH. now apply make_move_game_inv.
Qed.

Lemma in_progress_has_position_left_witness :
  Forall (fun o =>
            game_inv (game_after o)
            /\ (game_over (game_after o) = false ->
                List.length (guessed_letters (game_after o))
                < String.length (target (game_after o))))
         (play (new_game "CHAD" 2) ["C"; "H"; "A"]).
Proof.
  apply (in_progress_has_position_left ["C"; "H"; "A"] (new_game "CHAD" 2)).
  apply new_game_inv. discriminate.
Defined.

Lemma history_after_move (g : Game) (guess : string) :
  history (game_after (make_move g guess))
  = (history g ++ logged (guess, make_move g guess))%list.
Proof. move_cases g guess; simpl; now rewrite ?app_nil_r. Qed.

(** X14: the history is the transcript of the accepted guesses: after any
    sequence of calls it is the history before, followed in call order by
    one entry per call that returned a form (the guess as typed and the
    message of the form) and by nothing for the other calls. *)
Theorem history_is_transcript (guesses : list string) :
  forall g : Game,
    history (game_after_all g guesses)
    = (history g ++ flat_map logged (combine guesses (play g guesses)))%list.
Proof.
  induction guesses as [|guess rest IH]; intros g; simpl.
  - now rewrite app_nil_r.
  - rewrite IH, history_after_move, <- app_assoc. reflexivity.
Qed.

(** ** Targets that are not all letters *)

Lemma get_some_lt (s : string) :
  forall i c, String.get i s = Some c -> i < String.length s.
Proof.
  induction s as [|d s IH]; intros i c H; simpl in *; [discriminate|].
  destruct i as [|i]; [lia|]. apply IH in H. lia.
Qed.

Lemma get_all_alpha (s : string) :
  forall i c, String.get i s = Some c -> all_alpha s = true ->
              isalpha_char c = true.
Proof.
  induction s as [|d s IH]; intros i c H Ha; simpl in *; [discriminate|].
  apply andb_true_iff in Ha. destruct Ha as [Hd Hs].
  destruct i as [|i]; [injection H as <-; exact Hd | exact (IH i c H Hs)].
Qed.

(** A full list of distinct positions holds every position. *)
Lemma positions_full (l : list nat) (n i : nat) :
  NoDup l -> Forall (fun j => j < n) l -> List.length l = n -> i < n ->
  In i l.
Proof.
  intros Hnd Hall Hlen Hi.
  assert (Hincl : incl l (seq 0 n)).
  { intros j Hj. apply in_seq. rewrite Forall_forall in Hall.
    specialize (Hall j Hj). lia. }
  apply (NoDup_length_incl Hnd) in Hincl.
  - apply Hincl. apply in_seq. lia.
  - rewrite length_seq. lia.
Qed.

Lemma single_letter_upper_alpha (guess : string) (c : ascii) :
  isalpha guess = true -> upper guess = String c EmptyString ->
  isalpha_char c = true.
Proof.
  intros Hal Hu. rewrite <- isalpha_upper, Hu in Hal. simpl in Hal.
  now rewrite andb_true_r in Hal.
Qed.

Lemma blocked_move (g : Game) (guess : string) (i : nat) :
  valid_positions g ->
  state_of g <> WON ->
  blocked_at g i ->
  state_of (game_after (make_move g guess)) <> WON
  /\ blocked_at (game_after (make_move g guess)) i.
Proof.
  intros Hv Hnw [[c [Hget [Hrange Hc]]] Hnot].
  pose proof (make_move_valid_positions g guess Hv) as Hv'.
  assert (Hfresh : isalpha guess = true ->
                   ~ In i (guessed_letters g
                           ++ fresh_matches (upper guess) (target g) 0
                                (guessed_letters g))).
  { intros Hal Hin. apply in_app_or in Hin. destruct Hin as [Hin | Hin];
      [contradiction|].
    destruct (fresh_matches_sound _ _ _ _ _ Hin) as [d [Hd Hu]].
    rewrite Nat.sub_0_r, Hget in Hd. injection Hd as <-.
    rewrite (single_letter_upper_alpha guess c Hal Hu) in Hc.
    discriminate. }
  revert Hv' Hnw. unfold blocked_at, state_of.
  move_cases g guess; cbn [game_after target guessed_letters game_over won];
    rewrite ?Hover; intros Hv' Hnw.
  - split; [exact Hnw | split; [now exists c | exact Hnot]].
  - exfalso. apply String.eqb_eq in Hword. subst guess.
    apply isalpha_all_alpha in Halpha.
    rewrite (get_all_alpha _ _ _ Hget Halpha) in Hc. discriminate.
  - exfalso. apply Nat.eqb_eq in Hfull. apply (Hfresh eq_refl).
    destruct Hv' as [Hnd Hall]. simpl in Hnd, Hall.
    apply (positions_full _ (String.length (target g)));
      [assumption | assumption | assumption | exact (get_some_lt _ _ _ Hget)].
  - split; [discriminate | split; [now exists c | exact (Hfresh eq_refl)]].
  - split; [discriminate | split; [now exists c | exact (Hfresh eq_refl)]].
  - split; [discriminate | split; [now exists c | exact (Hfresh eq_refl)]].
  - split; [discriminate | split; [now exists c | exact (Hfresh eq_refl)]].
  - split; [exact Hnw | split; [now exists c | exact Hnot]].
  - split; [exact Hnw | split; [now exists c | exact Hnot]].
Qed.

(** X15: a target with a character that is not a letter cannot be won: the
    whole word is refused as not all letters and the position of that
    character can never be guessed, so from a well-formed game that is not
    won, no call of any sequence leaves the game WON. *)
Theorem non_letter_target_never_won (guesses : list string) :
  forall (g : Game) (i : nat),
    valid_positions g ->
    state_of g <> WON ->
    blocked_at g i ->
    Forall (fun o => state_of (game_after o) <> WON) (play g guesses).
Proof.
  induction guesses as [|guess rest IH]; intros g i Hv Hnw Hb; simpl;
    constructor.
  - exact (proj1 (blocked_move g guess i Hv Hnw Hb)).
  - destruct (blocked_move g guess i Hv Hnw Hb) as [Hnw' Hb'].
    apply (IH _ i); [now apply make_move_valid_positions | exact Hnw'
                    | exact Hb'].
Qed.

Lemma costa_rica_blocked : blocked_at (new_game "COSTA RICA" 9) 5.
Proof.
  split; [|intros []]. exists " "%char.
  split; [reflexivity | split; [apply Nat.ltb_lt | ]; reflexivity].
Qed.

(** "COSTA RICA" is not won by its letters nor by the word itself. *)
Lemma non_letter_target_never_won_witness :
  Forall (fun o => state_of (game_after o) <> WON)
         (play (new_game "COSTA RICA" 9)
               ["C"; "O"; "S"; "T"; "A"; "R"; "I"; "COSTA RICA"; " "]).
Proof.
  apply (non_letter_target_never_won
           ["C"; "O"; "S"; "T"; "A"; "R"; "I"; "COSTA RICA"; " "]
           (new_game "COSTA RICA" 9) 5).
  - split; constructor.
  - discriminate.
  - apply costa_rica_blocked.
Defined.

(** * Properties of the average-attempts task *)

Lemma total_attempts_remaining_perm (l l' : list Game) :
  Permutation l l' ->
  total_attempts_remaining l = total_attempts_remaining l'.
Proof.
  unfold total_attempts_remaining.
  induction 1 as [|x l l' _ IH|x y l|l l' l'' _ IH1 _ IH2]; simpl.
  - reflexivity.
  - now rewrite IH.
  - lia.
  - now rewrite IH1.
Qed.

Lemma active_games_none (store : list Game) :
  (forall g, In g store -> game_over g = true) -> active_games store = [].
Proof.
  unfold active_games. induction store as [|g store IH]; intros H; simpl;
    [reflexivity|].
  rewrite (H g (or_introl eq_refl)). simpl.
  apply IH. intros g' Hg'. apply H. now right.
Qed.

(** X16: what the task caches depends on the games in progress only, and
    not on the order in which the query returns them: two stores with the
    same games in progress, in any order and with any finished games beside
    them, give the same cache. *)
Theorem average_depends_on_active_games (fmt : Z -> nat -> string)
    (store store' : list Game) (memcache : option string) :
  Permutation (active_games store) (active_games store') ->
  _cache_average_attempts fmt store memcache
  = _cache_average_attempts fmt store' memcache.
Proof.
  intros Hperm. unfold _cache_average_attempts.
  pose proof (total_attempts_remaining_perm _ _ Hperm) as Htotal.
  pose proof (Permutation_length Hperm) as Hlen.
  destruct (active_games store) as [|a l];
    destruct (active_games store') as [|a' l']; try discriminate.
  - reflexivity.
  - now rewrite Htotal, Hlen.
Qed.

Lemma average_depends_on_active_games_witness :
  _cache_average_attempts (fun _ _ => EmptyString)
    [new_game "PERU" 5; finished_game; new_game "CHAD" 2] None
  = _cache_average_attempts (fun _ _ => EmptyString)
      [new_game "CHAD" 2; new_game "PERU" 5] None.
Proof.
  apply (average_depends_on_active_games (fun _ _ => EmptyString)
           [new_game "PERU" 5; finished_game; new_game "CHAD" 2]
           [new_game "CHAD" 2; new_game "PERU" 5] None).
  simpl. apply perm_swap.
Defined.

(** X17: when every stored game is over the task writes nothing: the cache
    is as it was, so an average cached earlier is still what
    [get_average_attempts] reads. *)
Theorem finished_games_keep_stale_average (fmt : Z -> nat -> string)
    (store : list Game) (memcache : option string) :
  (forall g, In g store -> game_over g = true) ->
  _cache_average_attempts fmt store memcache = memcache
  /\ get_average_attempts (_cache_average_attempts fmt store memcache)
     = get_average_attempts memcache.
Proof.
  intros H. unfold _cache_average_attempts.
  rewrite (active_games_none store H). now split.
Qed.

Lemma finished_games_keep_stale_average_witness :
  _cache_average_attempts (fun _ _ => EmptyString) [finished_game]
    (Some "The average moves remaining is 3.00")
  = Some "The average moves remaining is 3.00"
  /\ get_average_attempts
       (_cache_average_attempts (fun _ _ => EmptyString) [finished_game]
          (Some "The average moves remaining is 3.00"))
     = get_average_attempts (Some "The average moves remaining is 3.00").
Proof.
  apply (finished_games_keep_stale_average (fun _ _ => EmptyString)
           [finished_game] (Some "The average moves remaining is 3.00")).
  intros g [<- | []]. reflexivity.
Defined.

(** * Properties of [create_user] *)

Lemma user_by_name_none (users : list User) (n : string) :
  user_by_name users n = None -> ~ In n (map name users).
Proof.
  unfold user_by_name. induction users as [|u users IH]; simpl;
    [tauto|].
  destruct (String.eqb (name u) n) eqn:E; [discriminate|].
  intros H [Hu | Hin]; [|now apply IH].
  apply String.eqb_neq in E. contradiction.
Qed.

Lemma user_by_name_app (users : list User) (u : User) (n : string) :
  user_by_name (users ++ [u]) n
  = match user_by_name users n with
    | Some v => Some v
    | None => if String.eqb (name u) n then Some u else None
    end.
Proof.
  unfold user_by_name. induction users as [|v users IH]; simpl.
  - reflexivity.
  - destruct (String.eqb (name v) n); [reflexivity | exact IH].
Qed.

(** X18: registration keeps user names unique: from stored users with
    pairwise different names, the users stored after [create_user] have
    pairwise different names again, whether it created one or raised. *)
Theorem create_user_keeps_names_unique (users : list User)
    (user_name : string) (user_email : option string) :
  NoDup (map name users) ->
  NoDup (map name (snd (create_user users user_name user_email))).
Proof.
  intros Hnd. unfold create_user.
  destruct (user_by_name users user_name) eqn:E; simpl; [exact Hnd|].
  rewrite map_app. simpl. apply NoDup_app.
  - exact Hnd.
  - constructor; [intros [] | constructor].
  - intros n Hin [<- | []]. exact (user_by_name_none _ _ E Hin).
Qed.

Lemma create_user_keeps_names_unique_witness :
  NoDup (map name
           (snd (create_user [mkUser "ada" None] "bob"
                   (Some "bob@example.com")))).
Proof.
  apply (create_user_keeps_names_unique [mkUser "ada" None] "bob"
           (Some "bob@example.com")).
  simpl. constructor; [intros [] | constructor].
Defined.

(** X19: a name can be registered once: whatever the first [create_user]
    did, a second one for the same name raises [ConflictException] and
    leaves the stored users as the first one left them. *)
Theorem create_user_twice_conflicts (users : list User)
    (user_name : string) (email1 email2 : option string) :
  create_user (snd (create_user users user_name email1)) user_name email2
  = (inl (ConflictException "A User with that name already exists!"),
     snd (create_user users user_name email1)).
Proof.
  unfold create_user at 2 3.
  destruct (user_by_name users user_name) eqn:E; simpl.
  - unfold create_user. now rewrite E.
  - unfold create_user. rewrite user_by_name_app, E. simpl.
    now rewrite String.eqb_refl.
Qed.

(** X20: a successful registration can be looked up and disturbs nobody
    else: for a name not stored yet, the stored users afterwards answer the
    query for that name with the new user and its email, and the query for
    any other name as before; and the reply names the user. *)
Theorem created_user_is_found (users : list User) (user_name : string)
    (user_email : option string) :
  user_by_name users user_name = None ->
  let after := snd (create_user users user_name user_email) in
  fst (create_user users user_name user_email)
  = inr ("User " ++ user_name ++ " created!")
  /\ user_by_name after user_name = Some (mkUser user_name user_email)
  /\ forall other,
       other <> user_name ->
       user_by_name after other = user_by_name users other.
Proof.
  intros E. unfold create_user. rewrite E. simpl.
  split; [reflexivity|]. split.
  - rewrite user_by_name_app, E. simpl. now rewrite String.eqb_refl.
  - intros other Hne. rewrite user_by_name_app. simpl.
    destruct (user_by_name users other); [reflexivity|].
    replace (String.eqb user_name other) with false; [reflexivity|].
    symmetry. apply String.eqb_neq. congruence.
Qed.

Lemma created_user_is_found_witness :
  let after := snd (create_user [mkUser "ada" None] "bob" None) in
  fst (create_user [mkUser "ada" None] "bob" None)
  = inr ("User " ++ "bob" ++ " created!")
  /\ user_by_name after "bob" = Some (mkUser "bob" None)
  /\ forall other,
       other <> "bob" ->
       user_by_name after other
       = user_by_name [mkUser "ada" None] other.
Proof.
  apply (created_user_is_found [mkUser "ada" None] "bob" None).
  reflexivity.
Defined.


(** * The cached average *)

(** ** Rounding *)

Section Rounding.
Local Open Scope Z_scope.

Lemma round_half_even_near (a b : Z) :
  0 < b -> 2 * Z.abs (round_half_even a b * b - a) <= b.
Proof.
  intros Hb. unfold round_half_even.
  pose proof (Z.div_mod a b) as Hdm.
  pose proof (Z.mod_pos_bound a b Hb) as Hr.
  assert (Ha : a = b * (a / b) + a mod b) by (apply Hdm; lia).
  clear Hdm. set (q := a / b) in *. set (r := a mod b) in *.
  destruct (Z.ltb_spec (2 * r) b); [lia|].
  destruct (Z.ltb_spec b (2 * r)); [lia|].
  destruct (Z.even q); lia.
Qed.

Lemma round_half_even_nonneg (a b : Z) :
  0 <= a -> 0 < b -> 0 <= round_half_even a b.
Proof.
  intros Ha Hb. unfold round_half_even.
  pose proof (Z.div_pos a b Ha Hb) as Hq.
  destruct (_ <? _); [lia|]. destruct (_ <? _); [lia|].
  destruct (Z.even _); lia.
Qed.

Lemma binary64_shift_spec (t c : Z) :
  0 < t -> 0 < c ->
  0 <= binary64_shift t c /\ 2 ^ 52 * c <= t * 2 ^ binary64_shift t c.
Proof.
  intros Ht Hc. unfold binary64_shift.
  set (s0 := Z.max 0 (52 + Z.log2 c - Z.log2 t)).
  assert (Hs0 : 0 <= s0) by apply Z.le_max_l.
  assert (Hs1 : 52 + Z.log2 c - Z.log2 t <= s0) by apply Z.le_max_r.
  destruct (Z.leb_spec (2 ^ 52 * c) (t * 2 ^ s0)) as [H | H];
    [split; assumption|].
  split; [lia|].
  pose proof (Z.log2_nonneg t) as Hlt.
  pose proof (Z.log2_nonneg c) as Hlc.
  destruct (Z.log2_spec t Ht) as [Ht1 _].
  destruct (Z.log2_spec c Hc) as [_ Hc2].
  assert (Hp : 2 ^ 52 * 2 ^ Z.succ (Z.log2 c)
               <= 2 ^ Z.log2 t * 2 ^ (s0 + 1)).
  { rewrite <- !Z.pow_add_r by lia. apply Z.pow_le_mono_r; lia. }
  assert (Hpos : 0 < 2 ^ (s0 + 1)) by (apply Z.pow_pos_nonneg; lia).
  assert (H52 : 0 < 2 ^ 52) by (apply Z.pow_pos_nonneg; lia).
  apply Z.le_trans with (2 ^ 52 * 2 ^ Z.succ (Z.log2 c));
    [apply Z.mul_le_mono_nonneg_l; lia|].
  apply Z.le_trans with (2 ^ Z.log2 t * 2 ^ (s0 + 1)); [exact Hp|].
  apply Z.mul_le_mono_nonneg_r; lia.
Qed.

Lemma hundredths_near (t c : Z) :
  0 < c -> Z.abs t < 2 ^ 45 ->
  0 <= hundredths t c
  /\ 2 * Z.abs (hundredths t c * c - 100 * Z.abs t) <= c.
Proof.
  intros Hc Ht. unfold hundredths, binary64_significand.
  destruct (Z.eqb_spec t 0) as [-> | Hne]; [simpl; lia|].
  set (T := Z.abs t) in *. assert (HT : 0 < T) by (unfold T; lia).
  destruct (binary64_shift_spec T c HT Hc) as [Hs Hlow].
  set (s := binary64_shift T c) in *.
  assert (HP : 0 < 2 ^ s) by (apply Z.pow_pos_nonneg; lia).
  set (P := 2 ^ s) in *.
  pose proof (round_half_even_near (T * P) c Hc) as Hm.
  pose proof (round_half_even_nonneg (T * P) c ltac:(nia) Hc) as Hm0.
  set (m := round_half_even (T * P) c) in *.
  pose proof (round_half_even_near (100 * m) P HP) as Hh.
  pose proof (round_half_even_nonneg (100 * m) P ltac:(lia) HP) as Hh0.
  set (h := round_half_even (100 * m) P) in *.
  split; [exact Hh0|].
  assert (H45 : 2 ^ 52 = 128 * 2 ^ 45) by reflexivity.
  assert (HPc : 128 * c < P) by nia.
  assert (Hid : (h * c - 100 * T) * P
                = c * (h * P - 100 * m) + 100 * (m * c - T * P)) by ring.
  assert (Hb : 2 * Z.abs ((h * c - 100 * T) * P) <= c * P + 100 * c).
  { rewrite Hid. nia. }
  rewrite Z.abs_mul, (Z.abs_eq P) in Hb by lia.
  nia.
Qed.
End Rounding.

(** On samples the significand and the scale are those of the division of
    the standard library's binary64 specification. *)
Lemma binary64_quotient_samples :
  map (fun p : Z * Z =>
         SFdiv 53 1024 (binary_normalize 53 1024 (fst p) 0 false)
                       (binary_normalize 53 1024 (snd p) 0 false))
      [(1, 3); (2, 3); (9, 8); (107, 40); (1, 200); (12345, 678)]%Z
  = map (fun p : Z * Z =>
           S754_finite false
             (Z.to_pos (binary64_significand (fst p) (snd p)))
             (- binary64_shift (fst p) (snd p)))
        [(1, 3); (2, 3); (9, 8); (107, 40); (1, 200); (12345, 678)]%Z.
Proof. vm_compute. reflexivity. Qed.

(** ** What the task caches *)

(** C8, as stated, fails twice.  Eight games in progress with 9 attempts in
    all have the mean 9/8 = 1.125, and the task caches "1.12".  And with no
    game in progress an average cached earlier stays in the cache, which is
    then neither absent nor empty. *)
Lemma average_rounded_and_stale :
  (_cache_average_attempts format_2f eight_games None
   = Some "The average moves remaining is 1.12"
   /\ total_attempts_remaining (active_games eight_games) = 9%Z
   /\ List.length (active_games eight_games) = 8
   /\ (112 * 8 <> 100 * 9)%Z)
  /\ (active_games [finished_game] = []
      /\ get_average_attempts
           (_cache_average_attempts format_2f [finished_game]
              (Some "The average moves remaining is 3.00"))
         <> EmptyString).
Proof.
  split.
  - split; [vm_compute; reflexivity|]. split; [reflexivity|].
    split; [reflexivity | discriminate].
  - split; [reflexivity | discriminate].
Qed.

(** C8, amended: with at least one game in progress, fewer than 2^53 of
    them, and their attempts summing to less than 2^45 in absolute value,
    the task caches
    "The average moves remaining is " followed by the sign and a number of
    hundredths [h] that is a nearest one to the arithmetic mean of
    [attempts_remaining] over the games in progress: the mean rounded to two
    decimals.  With no game in progress it writes nothing and the cache
    stays as it was; no average, and no zero, is produced. *)
Theorem average_cached_to_two_decimals (store : list Game)
    (memcache : option string) :
  let games := active_games store in
  let total := total_attempts_remaining games in
  let count := Z.of_nat (List.length games) in
  (Z.abs total < 2 ^ 45)%Z ->
  (count < 2 ^ 53)%Z ->
  match games with
  | [] => _cache_average_attempts format_2f store memcache = memcache
  | _ :: _ =>
      exists h : Z,
        _cache_average_attempts format_2f store memcache
        = Some (msg_average ++ show_hundredths (total <? 0)%Z h)
        /\ (0 <= h)%Z
        /\ (2 * Z.abs (h * count - 100 * Z.abs total) <= count)%Z
  end.
Proof.
  intros games total count Hsmall _. unfold _cache_average_attempts.
  subst total count. fold games.
  destruct games as [|g rest] eqn:E; [reflexivity|].
  exists (hundredths (total_attempts_remaining (g :: rest))
                     (Z.of_nat (List.length (g :: rest)))).
  split; [reflexivity|].
  apply hundredths_near; [simpl List.length; lia | exact Hsmall].
Qed.

Lemma average_cached_to_two_decimals_witness :
  exists h : Z,
    _cache_average_attempts format_2f eight_games None
    = Some (msg_average ++ show_hundredths false h)
    /\ (0 <= h)%Z
    /\ (2 * Z.abs (h * 8 - 100 * 9) <= 8)%Z.
Proof.
  apply (average_cached_to_two_decimals eight_games None); reflexivity.
Defined.
